(** * pkg/logger: environment resolver and helpers

    A shallow embedding of the Go package [logger]
    (env resolver [InitFromEnv]/[getEnv]/[getEnvBool] and the helpers
    [FormatBytes], [LogError], [LogAndWrap], [Debug]/[Info]/[Warn]/[Error])
    together with the properties the specification states about them. *)

From Stdlib Require Import ZArith Lia Bool List Ascii String.
From Stdlib Require Import Numbers.DecimalString Numbers.DecimalZ.
From stdpp Require Import base option gmap strings.

Local Open Scope string_scope.
Local Open Scope Z_scope.

(** ** Go strings *)

Module GoStrings.

(** [strings.ToLower], ASCII path: ['A' <= c && c <= 'Z'] gives
    [c + ('a' - 'A')].  Bytes outside the ASCII letters are left as they
    are.  Go additionally maps multi-byte upper-case runes to their
    lower-case runes and invalid bytes to the replacement rune; the only
    runes outside ASCII that lower to an ASCII letter are the Kelvin sign
    (to [k]) and the dotted capital I (to [i]), so a string with a byte
    outside ASCII never lowers to ["true"], here as in Go, and the
    comparison made by [getEnvBool] is not affected. *)
Definition lower_byte (c : ascii) : ascii :=
  let n := nat_of_ascii c in
  if (Nat.leb 65 n && Nat.leb n 90)%bool then ascii_of_nat (n + 32) else c.

Fixpoint ToLower (s : string) : string :=
  match s with
  | EmptyString => EmptyString
  | String c s' => String (lower_byte c) (ToLower s')
  end.

(** [s[i]] on a string: a byte, or a run-time panic when [i] is out of
    range ([None]). *)
Fixpoint index (s : string) (i : nat) : option ascii :=
  match s, i with
  | EmptyString, _ => None
  | String c _, O => Some c
  | String _ s', S i' => index s' i'
  end.

End GoStrings.

(** ** Errors and dynamically typed values *)

(** A non-nil Go error: the text its [Error()] method returns and, for
    an error that wraps another one, the error [Unwrap()] returns. *)
Inductive error_value : Type :=
| PlainError (text : string)
| WrapError (text : string) (cause : error_value).

(** A value of the interface type [error]; [None] is the nil error. *)
Abbreviation error := (option error_value).

(** The methods of a non-nil error. *)
Module GoError.

Definition Error (e : error_value) : string :=
  match e with
  | PlainError text => text
  | WrapError text _ => text
  end.

Definition Unwrap (e : error_value) : error :=
  match e with
  | PlainError _ => None
  | WrapError _ cause => Some cause
  end.

End GoError.

(** A [*slog.Logger] is a reference to a logger of the engine. *)
Definition LoggerRef := nat.

(** Values of type [any] as they occur in attribute lists and contexts.
    [AnyLogger None] is a nil pointer of type [*slog.Logger]. *)
Inductive any : Type :=
| AnyNil
| AnyString (s : string)
| AnyInt (z : Z)
| AnyBool (b : bool)
| AnyError (e : error_value)
| AnyLogger (p : option LoggerRef).

(** Conversion of an [error] to [any]: the nil error becomes the nil
    interface value. *)
Definition any_of_error (err : error) : any :=
  match err with
  | Some e => AnyError e
  | None => AnyNil
  end.

(** ** The logging engine (log/slog) as explicit state *)

Inductive Level : Type := LevelDebug | LevelInfo | LevelWarn | LevelError.

(** One call of the method [log] of a [*slog.Logger]. *)
Record LogCall : Type := mkLogCall {
  call_logger : LoggerRef;
  call_level : Level;
  call_msg : string;
  call_args : list any
}.

(** The engine: the process-wide default logger, the outcome of the
    handler's write for each call ([false]: the record was dropped or the
    write failed), the calls made so far and the records that reached a
    sink. *)
Record World : Type := mkWorld {
  default_logger : LoggerRef;
  handle_ok : LogCall -> bool;
  calls : list LogCall;
  written : list LogCall
}.

Module slog.

(** [slog.Default()] *)
Definition Default (w : World) : LoggerRef := default_logger w.

(** Method [log] of a logger: the handler's result is discarded. *)
Definition log (l : LoggerRef) (level : Level) (msg : string)
           (args : list any) (w : World) : World :=
  let c := mkLogCall l level msg args in
  mkWorld (default_logger w) (handle_ok w)
          (calls w ++ [c])%list
          (if handle_ok w c then (written w ++ [c])%list else written w).

Definition Logger_Debug l := log l LevelDebug.
Definition Logger_Info l := log l LevelInfo.
Definition Logger_Warn l := log l LevelWarn.
Definition Logger_Error l := log l LevelError.

(** Package-level [slog.Debug] etc.: [Default().log(...)]. *)
Definition Debug msg args (w : World) : World := log (Default w) LevelDebug msg args w.
Definition Info msg args (w : World) : World := log (Default w) LevelInfo msg args w.
Definition Warn msg args (w : World) : World := log (Default w) LevelWarn msg args w.
Definition Error msg args (w : World) : World := log (Default w) LevelError msg args w.

End slog.

(** ** Environment resolver *)

(** The process environment. *)
Abbreviation Env := (gmap string string).

(** [os.Getenv]: the value, empty when the variable is not present. *)
Definition Getenv (env : Env) (key : string) : string :=
  default "" (env !! key).

(** Modelled from the spec: the declaration of the struct [Config] is not
    among the sources; the fields are those of the data model
    [{Level, Format, Output, AddSource, TimeFormat, Timezone}], with the
    types [InitFromEnv] assigns to them. *)
Record Config : Type := mkConfig {
  cfg_Level : string;
  cfg_Format : string;
  cfg_Output : string;
  cfg_AddSource : bool;
  cfg_TimeFormat : string;
  cfg_Timezone : string
}.

Definition getEnv (env : Env) (key defaultValue : string) : string :=
  let value := Getenv env key in
  if negb (String.eqb value "") then value else defaultValue.

Definition getEnvBool (env : Env) (key : string) (defaultValue : bool) : bool :=
  let value := Getenv env key in
  if String.eqb value "" then defaultValue
  else (String.eqb (GoStrings.ToLower value) "true" || String.eqb value "1")%bool.

(** The composite literal of [InitFromEnv]; [Timezone] keeps its zero
    value. *)
Definition InitFromEnv_cfg (env : Env) : Config :=
  {| cfg_Level := getEnv env "LOG_LEVEL" "INFO";
     cfg_Format := getEnv env "LOG_FORMAT" "color";
     cfg_Output := getEnv env "LOG_OUTPUT" "stdout";
     cfg_AddSource := getEnvBool env "LOG_ADD_SOURCE" true;
     cfg_TimeFormat := getEnv env "LOG_TIME_FORMAT" "rfc3339ms";
     cfg_Timezone := "" |}.

Section InitFromEnv.

(** [Init] (validation and construction of the logger) is defined in a
    file that is not among the sources: it is a parameter. *)
Variable Init : Config -> World -> error * World.

Definition InitFromEnv (env : Env) (w : World) : error * World :=
  let cfg := InitFromEnv_cfg env in
  Init cfg w.

End InitFromEnv.

(** ** Formatting (package fmt) *)

Module float64.

(** A finite positive [float64] as the exact dyadic number
    [mant * 2^expo].  Only values between [1] and [2^63] occur in
    [FormatBytes], so subnormal numbers, infinities and NaN are not
    modelled. *)
Record t : Type := mk { mant : Z; expo : Z }.

(** Numerator and denominator of the exact value. *)
Definition num (x : t) : Z := mant x * 2 ^ Z.max 0 (expo x).
Definition den (x : t) : Z := 2 ^ Z.max 0 (- expo x).

(** Rounding of the positive rational [p / q] to the nearest number
    with a significand of 53 bits, ties to even. *)
Definition round (p q : Z) : t :=
  let e0 := Z.log2 p - Z.log2 q - 52 in
  let scaled e := (p * 2 ^ Z.max 0 (- e), q * 2 ^ Z.max 0 e) in
  let e := if fst (scaled e0) / snd (scaled e0) <? 2 ^ 52 then e0 - 1 else e0 in
  let '(a, b) := scaled e in
  let m := a / b in
  let r := a - m * b in
  let up := ((b <? 2 * r) || ((2 * r =? b) && Z.odd m))%bool in
  mk (if up then m + 1 else m) e.

(** The conversion [float64(z)] of a positive [int64]. *)
Definition of_int64 (z : Z) : t := round z 1.

(** The quotient [x / y]. *)
Definition div (x y : t) : t := round (num x * den y) (den x * num y).

End float64.

Module fmt.

(** The verb [%d]: sign and decimal digits. *)
Definition verb_d (z : Z) : string := NilZero.string_of_int (Z.to_int z).

(** The verb [%.1f] on a positive [float64]: the exact value rounded
    to one digit after the point, ties to even. *)
Definition verb_f1 (x : float64.t) : string :=
  let a := 10 * float64.num x in
  let b := float64.den x in
  let m := a / b in
  let r := a - m * b in
  let up := ((b <? 2 * r) || ((2 * r =? b) && Z.odd m))%bool in
  let tenths := if up then m + 1 else m in
  verb_d (tenths / 10) +:+ "." +:+ verb_d (tenths mod 10).

(** [fmt.Errorf("%s: %w", msg, err)]: a wrapping error for a non-nil
    [err]; the operand nil is printed as a bad verb and nothing is
    wrapped. *)
Definition Errorf_s_w (msg : string) (err : error) : error :=
  match err with
  | Some e => Some (WrapError (msg +:+ ": " +:+ GoError.Error e) e)
  | None => Some (PlainError (msg +:+ ": " +:+ "%!w(<nil>)"))
  end.

End fmt.

(** ** Helpers *)

(** Arithmetic of [int64]: results wrap around. *)
Definition int64_wrap (z : Z) : Z := (z + 2 ^ 63) mod 2 ^ 64 - 2 ^ 63.

Definition int64_range (z : Z) : Prop := - 2 ^ 63 <= z < 2 ^ 63.

Definition unit : Z := 1024.

(** The [for] loop of [FormatBytes], from the values of [n], [div] and
    [exp] at the loop test to the values of [div] and [exp] at the exit.
    Each turn divides [n] by [unit], so the loop exits within [fuel]
    turns when [fuel] is at least the number of bits of [n]. *)
Fixpoint FormatBytes_loop_fuel (fuel : nat) (n div : Z) (exp : nat) : Z * nat :=
  match fuel with
  | O => (div, exp)
  | S fuel' =>
      if unit <=? n
      then FormatBytes_loop_fuel fuel' (Z.quot n unit) (int64_wrap (div * unit)) (S exp)
      else (div, exp)
  end.

Definition FormatBytes_loop (n div : Z) (exp : nat) : Z * nat :=
  FormatBytes_loop_fuel (Z.to_nat (Z.log2 n)) n div exp.

(** [None] is the run-time panic of an index out of range. *)
Definition FormatBytes (bytes : Z) : option string :=
  if bytes <? unit then Some (fmt.verb_d bytes +:+ " B")
  else
    let '(div, exp) := FormatBytes_loop (Z.quot bytes unit) unit 0 in
    match GoStrings.index "KMGTPE" exp with
    | Some c =>
        Some (fmt.verb_f1 (float64.div (float64.of_int64 bytes) (float64.of_int64 div))
              +:+ " " +:+ String c "B")
    | None => None
    end.

(** The argument [ctx interface{}] of [LogError]: the nil interface, a
    value whose type has no method [Value(key any) any], or a value that
    has one (a [context.Context], among others).  The method is taken to
    return here; [ctx_dyn] below has the contexts whose method can
    panic. *)
Inductive ctx_value : Type :=
| CtxNil
| CtxPlain (v : any)
| CtxValuer (Value : any -> any).

Section Helpers.

(** The context key [loggerKey] is declared in a file that is not
    among the sources: it is a parameter. *)
Variable loggerKey : any.

(** The variable [logger] of [LogError] after the two type
    assertions; [None] is the nil pointer. *)
Definition LogError_lookup (ctx : ctx_value) : option LoggerRef :=
  match ctx with
  | CtxValuer Value =>
      match Value loggerKey with
      | AnyLogger l => l
      | _ => None
      end
  | _ => None
  end.

(** The logger [LogError] writes to. *)
Definition LogError_logger (ctx : ctx_value) (w : World) : LoggerRef :=
  match LogError_lookup ctx with
  | Some l => l
  | None => slog.Default w
  end.

Definition LogError (ctx : ctx_value) (msg : string) (err : error)
           (attrs : list any) (w : World) : error * World :=
  let logger := LogError_logger ctx w in
  let allAttrs := ([AnyString "error"; any_of_error err] ++ attrs)%list in
  let w' := slog.Logger_Error logger msg allAttrs w in
  (err, w').

End Helpers.

Definition LogAndWrap (msg : string) (err : error) (attrs : list any)
           (w : World) : error * World :=
  let allAttrs := ([AnyString "error"; any_of_error err] ++ attrs)%list in
  let w' := slog.Error msg allAttrs w in
  (fmt.Errorf_s_w msg err, w').

Definition Debug (msg : string) (attrs : list any) (w : World) : World :=
  slog.Debug msg attrs w.

Definition Info (msg : string) (attrs : list any) (w : World) : World :=
  slog.Info msg attrs w.

Definition Warn (msg : string) (attrs : list any) (w : World) : World :=
  slog.Warn msg attrs w.

Definition Error (msg : string) (attrs : list any) (w : World) : World :=
  slog.Error msg attrs w.

(** ** Vocabulary of the specification *)

(** Two bytes are the same letter up to case: equal, or one is an
    upper-case ASCII letter and the other the lower-case letter 32
    places after it. *)
Definition same_letterb (a b : ascii) : bool :=
  let x := nat_of_ascii a in
  let y := nat_of_ascii b in
  (Ascii.eqb a b
   || (Nat.leb 65 x && Nat.leb x 90 && Nat.eqb y (x + 32))
   || (Nat.leb 65 y && Nat.leb y 90 && Nat.eqb x (y + 32)))%bool.

(** Equality of strings, case-insensitively. *)
Fixpoint eq_foldb (s t : string) : bool :=
  match s, t with
  | EmptyString, EmptyString => true
  | String a s', String b t' => (same_letterb a b && eq_foldb s' t')%bool
  | _, _ => false
  end.

(** The texts a boolean variable accepts as true. *)
Definition true_text (v : string) : bool :=
  (eq_foldb v "true" || String.eqb v "1")%bool.

(** The five variables of the fixed-default mode, with their names,
    the fixed defaults and the field of [Config] each one decides (a
    boolean field is written [true] or [false]). *)
Inductive LogVar : Type :=
| LOG_LEVEL | LOG_FORMAT | LOG_OUTPUT | LOG_ADD_SOURCE | LOG_TIME_FORMAT.

Definition var_name (x : LogVar) : string :=
  match x with
  | LOG_LEVEL => "LOG_LEVEL"
  | LOG_FORMAT => "LOG_FORMAT"
  | LOG_OUTPUT => "LOG_OUTPUT"
  | LOG_ADD_SOURCE => "LOG_ADD_SOURCE"
  | LOG_TIME_FORMAT => "LOG_TIME_FORMAT"
  end.

Definition fixed_default (x : LogVar) : string :=
  match x with
  | LOG_LEVEL => "INFO"
  | LOG_FORMAT => "color"
  | LOG_OUTPUT => "stdout"
  | LOG_ADD_SOURCE => "true"
  | LOG_TIME_FORMAT => "rfc3339ms"
  end.

Definition bool_text (b : bool) : string := if b then "true" else "false".

Definition field_text (x : LogVar) (cfg : Config) : string :=
  match x with
  | LOG_LEVEL => cfg_Level cfg
  | LOG_FORMAT => cfg_Format cfg
  | LOG_OUTPUT => cfg_Output cfg
  | LOG_ADD_SOURCE => bool_text (cfg_AddSource cfg)
  | LOG_TIME_FORMAT => cfg_TimeFormat cfg
  end.

(** A variable is absent from the environment or set to the empty
    string. *)
Definition absent_or_empty (env : Env) (key : string) : Prop :=
  env !! key = None \/ env !! key = Some "".

(** A variable is set to the non-empty text [v]. *)
Definition set_to (env : Env) (key v : string) : Prop :=
  env !! key = Some v /\ v <> "".

(** The context [ctx] carries the logger [l]: it has a method [Value]
    and the value under [loggerKey] is a non-nil [*slog.Logger]. *)
Inductive carries (loggerKey : any) : ctx_value -> LoggerRef -> Prop :=
| carries_intro Value l :
    Value loggerKey = AnyLogger (Some l) ->
    carries loggerKey (CtxValuer Value) l.

(** The call [l.log(level, msg, args)] is the one made last. *)
Definition last_call (w : World) : option LogCall := last (calls w).

(** The parse of a boolean variable as the specification words it: true
    for an accepted text, and any other value false unless the default is
    true. *)
Definition parse_as_stated (v : string) (defaultValue : bool) : bool :=
  (true_text v || defaultValue)%bool.

(** A pass-through at [level] as the specification words it: the log
    call of the engine's process-wide default logger at that level, with
    the message and the attributes as they were given. *)
Definition passthrough (level : Level) (msg : string) (attrs : list any)
           (w : World) : World :=
  slog.log (slog.Default w) level msg attrs w.

(** The texts [getEnvBool] accepts as true, written out: the sixteen
    spellings of [true] and the digit [1]. *)
Definition true_texts : list string :=
  ["true"; "truE"; "trUe"; "trUE"; "tRue"; "tRuE"; "tRUe"; "tRUE";
   "True"; "TruE"; "TrUe"; "TrUE"; "TRue"; "TRuE"; "TRUe"; "TRUE"; "1"].

(** Two environments give the same value, as [os.Getenv] reads it, to
    each of the five variables. *)
Definition same_log_vars (env env' : Env) : Prop :=
  forall x : LogVar, Getenv env (var_name x) = Getenv env' (var_name x).

(** The environment that sets each of the five variables to the text of
    its field in [cfg]. *)
Definition explicit_env (cfg : Config) : Env :=
  <[ var_name LOG_LEVEL := field_text LOG_LEVEL cfg ]>
  (<[ var_name LOG_FORMAT := field_text LOG_FORMAT cfg ]>
  (<[ var_name LOG_OUTPUT := field_text LOG_OUTPUT cfg ]>
  (<[ var_name LOG_ADD_SOURCE := field_text LOG_ADD_SOURCE cfg ]>
  (<[ var_name LOG_TIME_FORMAT := field_text LOG_TIME_FORMAT cfg ]> ∅)))).

(** A chain of callers, innermost first, each of which passes the error
    it received through [LogAndWrap] with its own message. *)
Fixpoint LogAndWrap_chain (msgs : list string) (err : error)
         (attrs : list any) (w : World) : error * World :=
  match msgs with
  | [] => (err, w)
  | msg :: msgs' =>
      let '(err', w') := LogAndWrap msg err attrs w in
      LogAndWrap_chain msgs' err' attrs w'
  end.

(** The message after wrapping the text [t] with the messages [msgs],
    innermost first. *)
Fixpoint wrapped_text (msgs : list string) (t : string) : string :=
  match msgs with
  | [] => t
  | msg :: msgs' => wrapped_text msgs' (msg +:+ ": " +:+ t)
  end.

(** [errors.Unwrap] applied [n] times. *)
Fixpoint unwrap_n (n : nat) (e : error_value) : error :=
  match n with
  | O => Some e
  | S n' =>
      match GoError.Unwrap e with
      | Some cause => unwrap_n n' cause
      | None => None
      end
  end.

(** ** LogError with the failures of the code it calls *)

(** The outcome of a call: it returns a value, or it panics. *)
Inductive outcome (A : Type) : Type :=
| Returns (a : A)
| Panics.

Arguments Returns {A} a.
Arguments Panics {A}.

(** The argument [ctx interface{}] of [LogError], with the method
    [Value] as the caller's code that it is: called with a key it returns
    a value, or it panics ([None]), as the method promoted from a nil
    embedded [context.Context] does. *)
Inductive ctx_dyn : Type :=
| DynNil
| DynPlain (v : any)
| DynValuer (Value : any -> option any).

(** A context whose method [Value] always returns. *)
Definition ctx_dyn_of (ctx : ctx_value) : ctx_dyn :=
  match ctx with
  | CtxNil => DynNil
  | CtxPlain v => DynPlain v
  | CtxValuer Value => DynValuer (fun key => Some (Value key))
  end.

Section HelpersRun.

Variable loggerKey : any.

(** Whether the method [Error] of a logger returns: it panics on a
    logger that has no handler, such as [new(slog.Logger)], or whose
    handler panics. *)
Variable usable : LoggerRef -> bool.

(** The two type assertions of [LogError]; only the call of [Value] can
    panic. *)
Definition LogError_run_lookup (ctx : ctx_dyn) : outcome (option LoggerRef) :=
  match ctx with
  | DynValuer Value =>
      match Value loggerKey with
      | Some (AnyLogger l) => Returns l
      | Some _ => Returns None
      | None => Panics
      end
  | _ => Returns None
  end.

Definition LogError_run (ctx : ctx_dyn) (msg : string) (err : error)
           (attrs : list any) (w : World) : outcome (error * World) :=
  match LogError_run_lookup ctx with
  | Panics => Panics
  | Returns found =>
      let logger := match found with
                    | Some l => l
                    | None => slog.Default w
                    end in
      let allAttrs := ([AnyString "error"; any_of_error err] ++ attrs)%list in
      if usable logger
      then Returns (err, slog.Logger_Error logger msg allAttrs w)
      else Panics
  end.

End HelpersRun.

(** The method [Value] of [ctx] panics when it is asked for
    [loggerKey]. *)
Definition Value_panics (loggerKey : any) (ctx : ctx_dyn) : Prop :=
  exists Value, ctx = DynValuer Value /\ Value loggerKey = None.

(** The context [ctx] carries the logger [l]. *)
Inductive carries_dyn (loggerKey : any) : ctx_dyn -> LoggerRef -> Prop :=
| carries_dyn_intro Value l :
    Value loggerKey = Some (AnyLogger (Some l)) ->
    carries_dyn loggerKey (DynValuer Value) l.

(** ** The environment resolver *)

Section Resolver.

Implicit Types (env : Env) (key v : string).

Lemma Getenv_absent_or_empty env key :
  absent_or_empty env key <-> Getenv env key = "".
Proof.
  unfold absent_or_empty, Getenv. destruct (env !! key) as [v|]; simpl.
  - split; [intros [H|H]; congruence | intros ->; now right].
  - split; [reflexivity | now left].
Qed.

Lemma Getenv_set_to env key v :
  set_to env key v -> Getenv env key = v /\ String.eqb v "" = false.
Proof.
  intros [H Hne]. unfold Getenv. rewrite H. split; [reflexivity|].
  now apply String.eqb_neq.
Qed.

Lemma getEnv_default env key d :
  absent_or_empty env key -> getEnv env key d = d.
Proof.
  intros H%Getenv_absent_or_empty. unfold getEnv. now rewrite H.
Qed.

Lemma getEnv_value env key d v :
  set_to env key v -> getEnv env key d = v.
Proof.
  intros [H E]%Getenv_set_to. unfold getEnv. now rewrite H, E.
Qed.

Lemma getEnvBool_default env key d :
  absent_or_empty env key -> getEnvBool env key d = d.
Proof.
  intros H%Getenv_absent_or_empty. unfold getEnvBool. now rewrite H.
Qed.

(** Lower-casing a byte gives the lower-case letter [b] exactly when
    the byte is that letter up to case. *)
Lemma lower_byte_same_letter (a b : ascii) :
  List.In b ["t"; "r"; "u"; "e"]%char ->
  Ascii.eqb (GoStrings.lower_byte a) b = same_letterb a b.
Proof.
  intros Hb. simpl in Hb.
  destruct Hb as [<-|[<-|[<-|[<-|[]]]]];
    destruct a as [[] [] [] [] [] [] [] []]; reflexivity.
Qed.

Lemma ToLower_eq_fold (s t : string) :
  (forall c, List.In c (list_ascii_of_string t) ->
             List.In c ["t"; "r"; "u"; "e"]%char) ->
  String.eqb (GoStrings.ToLower s) t = eq_foldb s t.
Proof.
  revert t. induction s as [|a s IH]; intros [|b t] Ht; try reflexivity.
  simpl. rewrite lower_byte_same_letter by (apply Ht; now left).
  destruct (same_letterb a b); [|reflexivity].
  apply IH. intros c Hc. apply Ht. now right.
Qed.

Lemma ToLower_true v :
  String.eqb (GoStrings.ToLower v) "true" = eq_foldb v "true".
Proof. apply ToLower_eq_fold. simpl. tauto. Qed.

Lemma getEnvBool_value env key d v :
  set_to env key v -> getEnvBool env key d = true_text v.
Proof.
  intros [H E]%Getenv_set_to. unfold getEnvBool, true_text.
  now rewrite H, E, ToLower_true.
Qed.

End Resolver.

(** C1, as stated, fails for LOG_ADD_SOURCE: set to the non-empty text
    [yes], the variable is not taken verbatim; the field AddSource of the
    produced Config is false. *)
Lemma InitFromEnv_cfg_add_source_not_verbatim :
  let env : Env := {[ "LOG_ADD_SOURCE" := "yes" ]} in
  set_to env (var_name LOG_ADD_SOURCE) "yes" /\
  cfg_AddSource (InitFromEnv_cfg env) = false /\
  field_text LOG_ADD_SOURCE (InitFromEnv_cfg env) <> "yes".
Proof.
  repeat split; discriminate.
Qed.

(** C1 (amended): in fixed-default mode, each of the five variables
    LOG_LEVEL, LOG_FORMAT, LOG_OUTPUT, LOG_ADD_SOURCE, LOG_TIME_FORMAT
    that is absent or set to the empty string gives its field the fixed
    default (INFO, color, stdout, true, rfc3339ms); each of LOG_LEVEL,
    LOG_FORMAT, LOG_OUTPUT, LOG_TIME_FORMAT that is set non-empty is taken
    verbatim, and LOG_ADD_SOURCE set non-empty is parsed as a boolean:
    true exactly when it equals [true] case-insensitively or is [1]. *)
Theorem InitFromEnv_cfg_resolution (env : Env) (x : LogVar) :
  (absent_or_empty env (var_name x) ->
   field_text x (InitFromEnv_cfg env) = fixed_default x) /\
  (forall v, set_to env (var_name x) v ->
     match x with
     | LOG_ADD_SOURCE => cfg_AddSource (InitFromEnv_cfg env) = true_text v
     | _ => field_text x (InitFromEnv_cfg env) = v
     end).
Proof.
  split.
  - intros H. destruct x; simpl in *;
      rewrite ?getEnv_default, ?getEnvBool_default by assumption; reflexivity.
  - intros v H. destruct x; simpl in *;
      first [ now apply getEnv_value | now apply getEnvBool_value ].
Qed.

Lemma InitFromEnv_cfg_resolution_witness :
  let env : Env := {[ "LOG_LEVEL" := "DEBUG"; "LOG_ADD_SOURCE" := "TRUE";
                      "LOG_OUTPUT" := "" ]} in
  cfg_Level (InitFromEnv_cfg env) = "DEBUG" /\
  cfg_AddSource (InitFromEnv_cfg env) = true /\
  cfg_Output (InitFromEnv_cfg env) = "stdout" /\
  cfg_Format (InitFromEnv_cfg env) = "color".
Proof.
  intros env. refine (conj _ (conj _ (conj _ _))).
  - apply (proj2 (InitFromEnv_cfg_resolution env LOG_LEVEL) "DEBUG").
    split; [reflexivity | discriminate].
  - apply (proj2 (InitFromEnv_cfg_resolution env LOG_ADD_SOURCE) "TRUE").
    split; [reflexivity | discriminate].
  - apply (proj1 (InitFromEnv_cfg_resolution env LOG_OUTPUT)).
    right. reflexivity.
  - apply (proj1 (InitFromEnv_cfg_resolution env LOG_FORMAT)).
    left. reflexivity.
Defined.

(** C2, as stated, fails for a non-empty value that is not an accepted
    text when the default is true: LOG_ADD_SOURCE set to [false] yields
    false although the default is true. *)
Lemma getEnvBool_false_with_default_true :
  let env : Env := {[ "LOG_ADD_SOURCE" := "false" ]} in
  set_to env "LOG_ADD_SOURCE" "false" /\
  true_text "false" = false /\
  getEnvBool env "LOG_ADD_SOURCE" true = false /\
  getEnvBool env "LOG_ADD_SOURCE" true
    <> parse_as_stated (Getenv env "LOG_ADD_SOURCE") true.
Proof.
  repeat split; discriminate.
Qed.

(** C2 (amended): for the boolean variable read by the resolver and
    every default d, the parse yields d when the variable is absent or
    set to the empty string; when it is set non-empty, the parse yields
    true exactly when the value equals [true] case-insensitively or is the
    literal [1], and false for any other value, whatever d is. *)
Theorem getEnvBool_parse (env : Env) (key : string) (d : bool) :
  (absent_or_empty env key -> getEnvBool env key d = d) /\
  (forall v, set_to env key v -> getEnvBool env key d = true_text v).
Proof.
  split.
  - apply getEnvBool_default.
  - intros v. apply getEnvBool_value.
Qed.

Lemma getEnvBool_parse_witness :
  let env : Env := {[ "LOG_ADD_SOURCE" := "True"; "OTHER" := "" ]} in
  getEnvBool env "LOG_ADD_SOURCE" false = true /\
  getEnvBool env "OTHER" true = true /\
  getEnvBool env "MISSING" false = false.
Proof.
  intros env. refine (conj _ (conj _ _)).
  - apply (proj2 (getEnvBool_parse env "LOG_ADD_SOURCE" false) "True").
    split; [reflexivity | discriminate].
  - apply (proj1 (getEnvBool_parse env "OTHER" true)). right. reflexivity.
  - apply (proj1 (getEnvBool_parse env "MISSING" false)). left. reflexivity.
Defined.

(** C7: fixed-default mode forwards the Config it builds, unchanged, to
    validation and construction ([Init]); the result of [InitFromEnv],
    error and state, is the result of that step, so a failure of
    [InitFromEnv] is exactly a failure of that step. *)
Theorem InitFromEnv_forwards
        (Init : Config -> World -> error * World) (env : Env) (w : World) :
  InitFromEnv Init env w = Init (InitFromEnv_cfg env) w /\
  (forall e, fst (InitFromEnv Init env w) = Some e <->
             fst (Init (InitFromEnv_cfg env) w) = Some e) /\
  (fst (InitFromEnv Init env w) = None <->
   fst (Init (InitFromEnv_cfg env) w) = None).
Proof.
  unfold InitFromEnv. repeat split; auto.
Qed.

(** ** The helpers that log *)

Section Logging.

Variable loggerKey : any.

Implicit Types (ctx : ctx_value) (w : World) (l : LoggerRef)
         (msg : string) (err : error) (attrs : list any).

Lemma log_calls l level msg attrs w :
  calls (slog.log l level msg attrs w)
  = (calls w ++ [mkLogCall l level msg attrs])%list.
Proof. reflexivity. Qed.

Lemma log_written l level msg attrs w :
  written (slog.log l level msg attrs w)
  = if handle_ok w (mkLogCall l level msg attrs)
    then (written w ++ [mkLogCall l level msg attrs])%list
    else written w.
Proof. reflexivity. Qed.

Lemma log_default l level msg attrs w :
  slog.Default (slog.log l level msg attrs w) = slog.Default w.
Proof. reflexivity. Qed.

Lemma LogError_lookup_carries ctx l :
  LogError_lookup loggerKey ctx = Some l <-> carries loggerKey ctx l.
Proof.
  split.
  - destruct ctx as [| v | Value]; simpl; try discriminate.
    destruct (Value loggerKey) as [| | | | |p] eqn:E; try discriminate.
    intros ->. now constructor.
  - intros [Value l' H]. simpl. now rewrite H.
Qed.

Lemma LogError_lookup_none ctx :
  LogError_lookup loggerKey ctx = None <-> ~ exists l, carries loggerKey ctx l.
Proof.
  split.
  - intros H [l Hl%LogError_lookup_carries]. congruence.
  - intros H. destruct (LogError_lookup loggerKey ctx) as [l|] eqn:E; [|reflexivity].
    exfalso. apply H. exists l. now apply LogError_lookup_carries.
Qed.

Lemma LogError_logger_carried ctx w l :
  carries loggerKey ctx l -> LogError_logger loggerKey ctx w = l.
Proof.
  intros H%LogError_lookup_carries. unfold LogError_logger. now rewrite H.
Qed.

Lemma LogError_logger_default ctx w :
  (~ exists l, carries loggerKey ctx l) ->
  LogError_logger loggerKey ctx w = slog.Default w.
Proof.
  intros H%LogError_lookup_none. unfold LogError_logger. now rewrite H.
Qed.

Lemma LogError_calls ctx msg err attrs w :
  calls (snd (LogError loggerKey ctx msg err attrs w))
  = (calls w ++ [mkLogCall (LogError_logger loggerKey ctx w) LevelError msg
                           (AnyString "error" :: any_of_error err :: attrs)])%list.
Proof. reflexivity. Qed.

Lemma LogAndWrap_calls msg err attrs w :
  calls (snd (LogAndWrap msg err attrs w))
  = (calls w ++ [mkLogCall (slog.Default w) LevelError msg
                           (AnyString "error" :: any_of_error err :: attrs)])%list.
Proof. reflexivity. Qed.

End Logging.

(** C3, as stated, fails for [LogAndWrap] at the nil error: the error
    returned has the message [read: %!w(<nil>)] and wraps nothing, so it
    is not the message of [err] after [msg] and [": "] around a wrapped
    [err]. *)
Lemma LogAndWrap_nil_not_wrapped :
  let w := mkWorld 0%nat (fun _ => true) [] [] in
  let r := PlainError "read: %!w(<nil>)" in
  fst (LogAndWrap "read" None [] w) = Some r /\
  GoError.Unwrap r = None /\
  ~ exists e, GoError.Error r = "read" +:+ ": " +:+ GoError.Error e /\
              GoError.Unwrap r = Some e.
Proof.
  split; [reflexivity|]. split; [reflexivity|].
  intros (e & _ & H). discriminate H.
Qed.

(** C3 (amended): [LogError] returns exactly the error it was given, nil
    included; [LogAndWrap] given a non-nil [err] returns an error whose
    message is [msg], then [": "], then the message of [err], and which
    wraps [err]; given the nil error it returns a non-nil error whose
    message is [msg], then [": %!w(<nil>)"], and which wraps nothing.  All
    of it holds in every state of the engine, whether its handler writes
    the record ([handle_ok] true) or not. *)
Theorem LogError_LogAndWrap_result
        (loggerKey : any) (ctx : ctx_value) (msg : string)
        (err : error) (e : error_value) (attrs : list any) (w : World) :
  fst (LogError loggerKey ctx msg err attrs w) = err /\
  (exists r, fst (LogAndWrap msg (Some e) attrs w) = Some r /\
             GoError.Error r = msg +:+ ": " +:+ GoError.Error e /\
             GoError.Unwrap r = Some e) /\
  (exists r, fst (LogAndWrap msg None attrs w) = Some r /\
             GoError.Error r = msg +:+ ": " +:+ "%!w(<nil>)" /\
             GoError.Unwrap r = None).
Proof.
  split; [reflexivity|]. split.
  - exists (WrapError (msg +:+ ": " +:+ GoError.Error e) e). repeat split.
  - exists (PlainError (msg +:+ ": " +:+ "%!w(<nil>)")). repeat split.
Qed.

(** C5: [LogError] first looks up the logger carried by [ctx]; it falls
    back to the process-wide default logger if and only if [ctx] carries
    no logger; the call made has level Error, the same message and the
    same attributes either way. *)
Theorem LogError_logger_resolution
        (loggerKey : any) (ctx : ctx_value) (msg : string)
        (err : error) (attrs : list any) (w : World) :
  let w' := snd (LogError loggerKey ctx msg err attrs w) in
  let logged l := mkLogCall l LevelError msg
                            (AnyString "error" :: any_of_error err :: attrs) in
  (LogError_lookup loggerKey ctx = None <-> ~ exists l, carries loggerKey ctx l) /\
  (forall l, carries loggerKey ctx l -> calls w' = (calls w ++ [logged l])%list) /\
  ((~ exists l, carries loggerKey ctx l) ->
   calls w' = (calls w ++ [logged (slog.Default w)])%list).
Proof.
  intros w' logged. subst w'. split; [apply LogError_lookup_none|]. split.
  - intros l H. rewrite LogError_calls.
    now rewrite (LogError_logger_carried loggerKey ctx w l H).
  - intros H. rewrite LogError_calls.
    now rewrite (LogError_logger_default loggerKey ctx w H).
Qed.

Lemma LogError_logger_resolution_witness :
  let key := AnyString "logger" in
  let own := CtxValuer (fun k => AnyLogger (Some 7%nat)) in
  let w := mkWorld 0%nat (fun _ => false) [] [] in
  calls (snd (LogError key own "boom" None [AnyInt 1] w))
  = [mkLogCall 7%nat LevelError "boom" [AnyString "error"; AnyNil; AnyInt 1]] /\
  calls (snd (LogError key CtxNil "boom" None [AnyInt 1] w))
  = [mkLogCall 0%nat LevelError "boom" [AnyString "error"; AnyNil; AnyInt 1]].
Proof.
  intros key own w. split.
  - apply (proj1 (proj2 (LogError_logger_resolution key own "boom" None [AnyInt 1] w)) 7%nat).
    now constructor.
  - apply (proj2 (proj2 (LogError_logger_resolution key CtxNil "boom" None [AnyInt 1] w))).
    intros [l H]. inversion H.
Defined.

(** C6: the package-level [Debug], [Info], [Warn] and [Error] are pure
    pass-throughs: each is the log call of the engine's process-wide
    default logger at the corresponding level with the message and the
    attributes it was given, and that call is the only effect. *)
Theorem level_functions_passthrough (msg : string) (attrs : list any) (w : World) :
  (Debug msg attrs w = passthrough LevelDebug msg attrs w /\
   Info msg attrs w = passthrough LevelInfo msg attrs w /\
   Warn msg attrs w = passthrough LevelWarn msg attrs w /\
   Error msg attrs w = passthrough LevelError msg attrs w) /\
  (Debug msg attrs w = slog.Logger_Debug (slog.Default w) msg attrs w /\
   Info msg attrs w = slog.Logger_Info (slog.Default w) msg attrs w /\
   Warn msg attrs w = slog.Logger_Warn (slog.Default w) msg attrs w /\
   Error msg attrs w = slog.Logger_Error (slog.Default w) msg attrs w) /\
  (calls (Debug msg attrs w)
     = (calls w ++ [mkLogCall (default_logger w) LevelDebug msg attrs])%list /\
   calls (Info msg attrs w)
     = (calls w ++ [mkLogCall (default_logger w) LevelInfo msg attrs])%list /\
   calls (Warn msg attrs w)
     = (calls w ++ [mkLogCall (default_logger w) LevelWarn msg attrs])%list /\
   calls (Error msg attrs w)
     = (calls w ++ [mkLogCall (default_logger w) LevelError msg attrs])%list).
Proof.
  repeat split.
Qed.

(** On the runs in which nothing panics, [LogError] makes one log
    call and returns the given error; the call goes to the process-wide
    default logger when [ctx] is nil, is not a context, or carries no
    logger, and to the carried logger otherwise. *)
Lemma LogError_total
      (loggerKey : any) (ctx : ctx_value) (msg : string)
      (err : error) (attrs : list any) (w : World) :
  let w' := snd (LogError loggerKey ctx msg err attrs w) in
  fst (LogError loggerKey ctx msg err attrs w) = err /\
  (exists c, calls w' = (calls w ++ [c])%list /\
             (ctx = CtxNil \/ (exists v, ctx = CtxPlain v) \/
              (~ exists l, carries loggerKey ctx l) ->
              call_logger c = slog.Default w) /\
             (forall l, carries loggerKey ctx l -> call_logger c = l)).
Proof.
  intros w'. split; [reflexivity|].
  eexists. split; [apply LogError_calls|]. split.
  - intros H. simpl. apply LogError_logger_default.
    destruct H as [-> | [[v ->] | H]]; [| | exact H]; intros [l Hl]; inversion Hl.
  - intros l H. simpl. now apply LogError_logger_carried.
Qed.

(** [LogError] is the run of [LogError_run] on a context whose method
    [Value] returns, when the logger it resolves can be written to. *)
Lemma LogError_run_returns
      (loggerKey : any) (usable : LoggerRef -> bool) (ctx : ctx_value)
      (msg : string) (err : error) (attrs : list any) (w : World) :
  usable (LogError_logger loggerKey ctx w) = true ->
  LogError_run loggerKey usable (ctx_dyn_of ctx) msg err attrs w
  = Returns (LogError loggerKey ctx msg err attrs w).
Proof.
  unfold LogError_run, LogError, LogError_logger.
  destruct ctx as [| v | Value]; simpl; try (now intros ->).
  destruct (Value loggerKey) as [| | | | |[l|]]; simpl; now intros ->.
Qed.

Lemma LogError_run_lookup_panics (loggerKey : any) (ctx : ctx_dyn) :
  LogError_run_lookup loggerKey ctx = Panics <-> Value_panics loggerKey ctx.
Proof.
  split.
  - destruct ctx as [| v | Value]; simpl; try discriminate.
    destruct (Value loggerKey) as [[| | | | |p]|] eqn:E; try discriminate.
    intros _. now exists Value.
  - intros (Value & -> & H). simpl. now rewrite H.
Qed.

Lemma LogError_run_lookup_carries (loggerKey : any) (ctx : ctx_dyn) (l : LoggerRef) :
  LogError_run_lookup loggerKey ctx = Returns (Some l) <-> carries_dyn loggerKey ctx l.
Proof.
  split.
  - destruct ctx as [| v | Value]; simpl; try discriminate.
    destruct (Value loggerKey) as [[| | | | |p]|] eqn:E; try discriminate.
    intros [= ->]. now constructor.
  - intros [Value l' H]. simpl. now rewrite H.
Qed.

Lemma LogError_run_lookup_none (loggerKey : any) (ctx : ctx_dyn) :
  LogError_run_lookup loggerKey ctx = Returns None <->
  ~ Value_panics loggerKey ctx /\ ~ exists l, carries_dyn loggerKey ctx l.
Proof.
  split.
  - intros H. split.
    + intros Hp%LogError_run_lookup_panics. congruence.
    + intros [l Hl%LogError_run_lookup_carries]. congruence.
  - intros [Hp Hc].
    destruct (LogError_run_lookup loggerKey ctx) as [[l|]|] eqn:E.
    + exfalso. apply Hc. exists l. now apply LogError_run_lookup_carries.
    + reflexivity.
    + exfalso. apply Hp. now apply LogError_run_lookup_panics.
Qed.

(** C8, as stated, fails twice.  [LogError] is not total in [ctx]: it
    panics for a context whose method [Value] panics, and for a context
    that carries a logger that cannot be written to (logger 7 here).  And
    for a context that carries a logger (7) the call goes to that logger,
    not to the process-wide default logger (0). *)
Lemma LogError_not_total_nor_default :
  let key := AnyString "logger" in
  let w := mkWorld 0%nat (fun _ => true) [] [] in
  let err := Some (PlainError "e") in
  let carrying := DynValuer (fun k => Some (AnyLogger (Some 7%nat))) in
  LogError_run key (fun l => true) (DynValuer (fun k => None)) "boom" err [] w
  = Panics /\
  LogError_run key (fun l => negb (Nat.eqb l 7)) carrying "boom" err [] w
  = Panics /\
  (exists w', LogError_run key (fun l => true) carrying "boom" err [] w
              = Returns (err, w') /\
              call_logger <$> last_call w' = Some 7%nat /\
              call_logger <$> last_call w' <> Some (slog.Default w)).
Proof.
  split; [reflexivity|]. split; [reflexivity|].
  eexists. split; [reflexivity|]. split; [reflexivity | discriminate].
Qed.

(** C8 (amended): [LogError] panics exactly when the method [Value] of
    [ctx] panics or the logger it resolves cannot be written to.  For
    every other [ctx], nil and the values that are not contexts or carry
    no logger included, it does not fail: it makes one log call, at level
    Error with the message and with the error in front of the attributes,
    and returns the given error.  The call goes to the process-wide
    default logger when [ctx] is nil, is not a context, or carries no
    logger, and to the carried logger when [ctx] carries one. *)
Theorem LogError_run_outcome
        (loggerKey : any) (usable : LoggerRef -> bool) (ctx : ctx_dyn)
        (msg : string) (err : error) (attrs : list any) (w : World) :
  let run := LogError_run loggerKey usable ctx msg err attrs w in
  let call l :=
    mkLogCall l LevelError msg (AnyString "error" :: any_of_error err :: attrs) in
  let logged l :=
    (err, mkWorld (default_logger w) (handle_ok w)
            (calls w ++ [call l])%list
            (if handle_ok w (call l) then (written w ++ [call l])%list
             else written w)) in
  (run = Panics <->
   Value_panics loggerKey ctx \/
   (exists l, carries_dyn loggerKey ctx l /\ usable l = false) \/
   (~ Value_panics loggerKey ctx /\ (~ exists l, carries_dyn loggerKey ctx l) /\
    usable (slog.Default w) = false)) /\
  (ctx = DynNil \/ (exists v, ctx = DynPlain v) \/
   (~ Value_panics loggerKey ctx /\ ~ exists l, carries_dyn loggerKey ctx l) ->
   usable (slog.Default w) = true ->
   run = Returns (logged (slog.Default w))) /\
  (forall l, carries_dyn loggerKey ctx l -> usable l = true ->
             run = Returns (logged l)).
Proof.
  intros run call logged. subst run. unfold LogError_run.
  split; [|split].
  - destruct (LogError_run_lookup loggerKey ctx) as [[l|]|] eqn:E.
    + pose proof (proj1 (LogError_run_lookup_carries loggerKey ctx l) E) as Hc.
      destruct (usable l) eqn:U; split.
      * discriminate.
      * intros [Hp | [(l' & Hl' & U') | (_ & Hn & _)]].
        -- apply LogError_run_lookup_panics in Hp. congruence.
        -- apply LogError_run_lookup_carries in Hl'. congruence.
        -- exfalso. apply Hn. now exists l.
      * intros _. right. left. now exists l.
      * reflexivity.
    + pose proof (proj1 (LogError_run_lookup_none loggerKey ctx) E) as [Hp Hn].
      destruct (usable (slog.Default w)) eqn:U; split.
      * discriminate.
      * intros [Hp' | [(l' & Hl' & _) | (_ & _ & U')]].
        -- contradiction.
        -- exfalso. apply Hn. now exists l'.
        -- congruence.
      * intros _. right. right. now repeat split.
      * reflexivity.
    + split; [|reflexivity]. intros _. left.
      now apply LogError_run_lookup_panics.
  - intros H U.
    assert (E : LogError_run_lookup loggerKey ctx = Returns None).
    { destruct H as [-> | [[v ->] | H]]; [reflexivity | reflexivity |].
      now apply LogError_run_lookup_none. }
    now rewrite E, U.
  - intros l Hc U. apply LogError_run_lookup_carries in Hc.
    now rewrite Hc, U.
Qed.

Lemma LogError_run_outcome_witness :
  let key := AnyString "logger" in
  let w := mkWorld 0%nat (fun _ => false) [] [] in
  LogError_run key (fun l => true) DynNil "boom" None [AnyInt 1] w
  = Returns (None, mkWorld 0%nat (fun _ => false)
                     [mkLogCall 0%nat LevelError "boom"
                                [AnyString "error"; AnyNil; AnyInt 1]] []) /\
  LogError_run key (fun l => true)
               (DynValuer (fun k => Some (AnyLogger (Some 7%nat))))
               "boom" None [AnyInt 1] w
  = Returns (None, mkWorld 0%nat (fun _ => false)
                     [mkLogCall 7%nat LevelError "boom"
                                [AnyString "error"; AnyNil; AnyInt 1]] []).
Proof.
  intros key w. split.
  - apply (proj1 (proj2 (LogError_run_outcome key (fun l => true) DynNil
                           "boom" None [AnyInt 1] w))).
    + now left.
    + reflexivity.
  - apply (proj2 (proj2 (LogError_run_outcome key (fun l => true)
                           (DynValuer (fun k => Some (AnyLogger (Some 7%nat))))
                           "boom" None [AnyInt 1] w)) 7%nat).
    + now constructor.
    + reflexivity.
Defined.

(** C9: [LogError] and [LogAndWrap] put the pair of the key [error] and
    the value [err] in front of the caller's attributes, which follow in
    their original order. *)
Theorem error_attribute_prepended
        (loggerKey : any) (ctx : ctx_value) (msg : string)
        (err : error) (attrs : list any) (w : World) :
  call_args <$> last_call (snd (LogError loggerKey ctx msg err attrs w))
  = Some (AnyString "error" :: any_of_error err :: attrs) /\
  call_args <$> last_call (snd (LogAndWrap msg err attrs w))
  = Some (AnyString "error" :: any_of_error err :: attrs).
Proof.
  unfold last_call. rewrite LogError_calls, LogAndWrap_calls, !last_snoc.
  split; reflexivity.
Qed.

Lemma LogAndWrap_nil_error (msg : string) (attrs : list any) (w : World) :
  fst (LogAndWrap msg None attrs w)
  = Some (PlainError (msg +:+ ": " +:+ "%!w(<nil>)")).
Proof. reflexivity. Qed.

(** ** FormatBytes *)

Section FormatBytes.

Implicit Types (n div bytes : Z) (exp fuel : nat).

Lemma verb_d_reads_back (z : Z) :
  Z.of_int <$> NilZero.int_of_string (fmt.verb_d z) = Some z.
Proof.
  unfold fmt.verb_d. rewrite NilZero.isi.
  - simpl. now rewrite DecimalZ.of_to.
  - destruct z as [|p|p]; simpl; try discriminate.
    intros [= H]. now apply DecimalPos.Unsigned.to_uint_nonnil in H.
  - destruct z as [|p|p]; simpl; try discriminate.
    intros [= H]. now apply DecimalPos.Unsigned.to_uint_nonnil in H.
Qed.

Lemma pow_unit_succ (k : nat) :
  unit ^ (Z.of_nat (S k) + 1) = unit * unit ^ (Z.of_nat k + 1).
Proof.
  rewrite Nat2Z.inj_succ.
  replace (Z.succ (Z.of_nat k) + 1) with (Z.succ (Z.of_nat k + 1)) by lia.
  apply Z.pow_succ_r. lia.
Qed.

Lemma quot_unit_bound n (k : nat) :
  unit <= n -> n < unit ^ (Z.of_nat (S k) + 1) ->
  Z.quot n unit < unit ^ (Z.of_nat k + 1).
Proof.
  intros Hn H. rewrite pow_unit_succ in H.
  apply Z.quot_lt_upper_bound; unfold unit in *; lia.
Qed.

(** Any two amounts of fuel that cover the size of [n] give the same
    result: the loop has reached its exit before either runs out. *)
Lemma FormatBytes_loop_fuel_enough fuel fuel' n div exp :
  n < unit ^ (Z.of_nat fuel + 1) -> n < unit ^ (Z.of_nat fuel' + 1) ->
  FormatBytes_loop_fuel fuel n div exp = FormatBytes_loop_fuel fuel' n div exp.
Proof.
  revert fuel' n div exp.
  induction fuel as [|fuel IH]; intros [|fuel'] n div exp H H'; simpl;
    try reflexivity.
  - change (unit ^ (Z.of_nat 0 + 1)) with unit in H.
    destruct (Z.leb_spec unit n); [lia | reflexivity].
  - change (unit ^ (Z.of_nat 0 + 1)) with unit in H'.
    destruct (Z.leb_spec unit n); [lia | reflexivity].
  - destruct (Z.leb_spec unit n); [|reflexivity].
    apply IH; now apply quot_unit_bound.
Qed.

Lemma log2_fuel_covers n : n < unit ^ (Z.of_nat (Z.to_nat (Z.log2 n)) + 1).
Proof.
  rewrite Z2Nat.id by apply Z.log2_nonneg.
  destruct (Z.le_gt_cases n 0) as [Hn|Hn].
  - assert (0 < unit ^ (Z.log2 n + 1)); [|lia].
    apply Z.pow_pos_nonneg; [reflexivity|]. pose proof (Z.log2_nonneg n). lia.
  - pose proof (Z.log2_nonneg n) as H0.
    destruct (Z.log2_spec n Hn) as [_ H].
    change unit with (2 ^ 10). rewrite <- Z.pow_mul_r by lia.
    eapply Z.lt_le_trans; [exact H|].
    apply Z.pow_le_mono_r; lia.
Qed.

(** The loop, turn by turn: the fuel given by [FormatBytes_loop]
    never runs out. *)
Lemma FormatBytes_loop_eq n div exp :
  FormatBytes_loop n div exp
  = if unit <=? n
    then FormatBytes_loop (Z.quot n unit) (int64_wrap (div * unit)) (S exp)
    else (div, exp).
Proof.
  unfold FormatBytes_loop.
  pose proof (log2_fuel_covers n) as Hc.
  destruct (Z.to_nat (Z.log2 n)) as [|fuel] eqn:Ef; simpl.
  - change (unit ^ (Z.of_nat 0 + 1)) with unit in Hc.
    destruct (Z.leb_spec unit n); [lia | reflexivity].
  - destruct (Z.leb_spec unit n); [|reflexivity].
    apply FormatBytes_loop_fuel_enough.
    + now apply quot_unit_bound.
    + apply log2_fuel_covers.
Qed.

(** The exponent at the exit is bounded by the size of [n]. *)
Lemma FormatBytes_loop_exp (k : nat) n div exp :
  n < unit ^ (Z.of_nat k + 1) ->
  (snd (FormatBytes_loop n div exp) <= exp + k)%nat.
Proof.
  revert n div exp. induction k as [|k IH]; intros n div exp H;
    rewrite FormatBytes_loop_eq.
  - change (unit ^ (Z.of_nat 0 + 1)) with unit in H.
    destruct (Z.leb_spec unit n); [lia | simpl; lia].
  - destruct (Z.leb_spec unit n); [|simpl; lia].
    specialize (IH (Z.quot n unit) (int64_wrap (div * unit)) (S exp)
                   (quot_unit_bound n k ltac:(assumption) H)).
    lia.
Qed.

(** On every [int64] the index into ["KMGTPE"] is in range:
    [FormatBytes] returns a string. *)
Lemma FormatBytes_returns bytes :
  int64_range bytes -> exists s, FormatBytes bytes = Some s.
Proof.
  intros [Hlo Hhi]. unfold FormatBytes.
  destruct (Z.ltb_spec bytes unit); [eauto|].
  assert (Hq : Z.quot bytes unit < unit ^ (Z.of_nat 5 + 1)).
  { apply Z.quot_lt_upper_bound; unfold unit in *; lia. }
  pose proof (FormatBytes_loop_exp 5 _ unit 0%nat Hq) as He.
  destruct (FormatBytes_loop (Z.quot bytes unit) unit 0) as [div exp].
  simpl in He.
  do 6 (destruct exp as [|exp]; [simpl; eauto|]). lia.
Qed.

(** The model on values that exercise the rounding: a tie goes to the
    even digit, the largest [int64] is rounded to [2^63] by the
    conversion, and a value just below a power of [unit] is rounded up
    without changing the unit letter. *)
Example FormatBytes_tie_to_even : FormatBytes 1280 = Some "1.2 KB".
Proof. vm_compute. reflexivity. Qed.

Example FormatBytes_max_int64 : FormatBytes (2 ^ 63 - 1) = Some "8.0 EB".
Proof. vm_compute. reflexivity. Qed.

Example FormatBytes_below_power : FormatBytes (1024 * 1024 - 1) = Some "1024.0 KB".
Proof. vm_compute. reflexivity. Qed.

End FormatBytes.

(** C4: [FormatBytes(0)] is ["0 B"], [FormatBytes(1536*1024)] is
    ["1.5 MB"] and [FormatBytes(1023)] is ["1023 B"]. *)
Theorem FormatBytes_examples :
  FormatBytes 0 = Some "0 B" /\
  FormatBytes (1536 * 1024) = Some "1.5 MB" /\
  FormatBytes 1023 = Some "1023 B".
Proof.
  repeat split; vm_compute; reflexivity.
Qed.

(** C10: for every [bytes] strictly below 1024, zero and the negative
    values included, [FormatBytes] returns the decimal representation of
    the value (the numeral that reads back as [bytes]) followed by
    [" B"], with no unit scaling. *)
Theorem FormatBytes_below_unit (bytes : Z) :
  bytes < 1024 ->
  FormatBytes bytes = Some (fmt.verb_d bytes +:+ " B") /\
  Z.of_int <$> NilZero.int_of_string (fmt.verb_d bytes) = Some bytes.
Proof.
  intros H. split; [|apply verb_d_reads_back].
  unfold FormatBytes. destruct (Z.ltb_spec bytes unit); [reflexivity|].
  unfold unit in *. lia.
Qed.

Lemma FormatBytes_below_unit_witness :
  -42 < 1024 /\
  FormatBytes (-42) = Some "-42 B" /\
  Z.of_int <$> NilZero.int_of_string "-42" = Some (-42).
Proof.
  split; [lia|]. apply (FormatBytes_below_unit (-42)). lia.
Defined.

(** * Further properties of the code *)

(** ** FormatBytes: the unit chosen by the loop *)

Section FormatBytesUnit.

Implicit Types (n div bytes : Z) (exp : nat).

Lemma int64_wrap_small (z : Z) : int64_range z -> int64_wrap z = z.
Proof.
  unfold int64_range, int64_wrap. intros H.
  rewrite Z.mod_small by lia. lia.
Qed.

Lemma quot_unit_bounds n :
  0 <= n -> unit * Z.quot n unit <= n < unit * (Z.quot n unit + 1).
Proof.
  intros Hn. rewrite Z.quot_div_nonneg by (unfold unit; lia).
  pose proof (Z.mul_div_le n unit ltac:(reflexivity)).
  pose proof (Z.mul_succ_div_gt n unit ltac:(reflexivity)).
  lia.
Qed.

(** The invariant of the loop: [div] is a power of [unit], the product
    [div * n] brackets [bytes], and [div * unit] stays within [int64]. *)
Lemma FormatBytes_loop_invariant (k : nat) bytes n div exp :
  n < unit ^ (Z.of_nat k + 1) ->
  1 <= n -> 0 < div ->
  div * n <= bytes < div * (n + 1) ->
  bytes < 2 ^ 63 ->
  div = unit ^ (Z.of_nat exp + 1) ->
  let r := FormatBytes_loop n div exp in
  fst r = unit ^ (Z.of_nat (snd r) + 1) /\ fst r <= bytes < unit * fst r.
Proof.
  revert n div exp.
  induction k as [|k IH]; intros n div exp Hk Hn Hd Hb Hmax Hp;
    rewrite FormatBytes_loop_eq.
  - change (unit ^ (Z.of_nat 0 + 1)) with unit in Hk.
    destruct (Z.leb_spec unit n); [lia|]. simpl. split; [exact Hp|].
    unfold unit in *. nia.
  - destruct (Z.leb_spec unit n) as [Hu|Hu].
    + pose proof (quot_unit_bounds n ltac:(lia)) as Hq.
      assert (Hw : int64_wrap (div * unit) = div * unit).
      { apply int64_wrap_small. unfold int64_range, unit in *. nia. }
      rewrite Hw. apply IH.
      * now apply quot_unit_bound.
      * unfold unit in *. lia.
      * unfold unit. lia.
      * unfold unit in *. nia.
      * exact Hmax.
      * rewrite Hp, Nat2Z.inj_succ.
        replace (Z.succ (Z.of_nat exp) + 1) with (Z.succ (Z.of_nat exp + 1)) by lia.
        rewrite Z.pow_succ_r by lia. lia.
    + simpl. split; [exact Hp|]. unfold unit in *. nia.
Qed.

Lemma FormatBytes_loop_start bytes :
  unit <= bytes -> bytes < 2 ^ 63 ->
  let r := FormatBytes_loop (Z.quot bytes unit) unit 0 in
  fst r = unit ^ (Z.of_nat (snd r) + 1) /\ fst r <= bytes < unit * fst r.
Proof.
  intros Hu Hmax.
  pose proof (quot_unit_bounds bytes ltac:(unfold unit in *; lia)) as Hq.
  apply (FormatBytes_loop_invariant 5).
  - apply Z.quot_lt_upper_bound; unfold unit in *; lia.
  - unfold unit in *. lia.
  - reflexivity.
  - unfold unit in *. lia.
  - exact Hmax.
  - reflexivity.
Qed.

Lemma pow_unit_between (a b : nat) bytes :
  unit ^ (Z.of_nat a + 1) <= bytes -> bytes < unit * unit ^ (Z.of_nat b + 1) ->
  (a <= b)%nat.
Proof.
  intros Ha Hb. rewrite <- Z.pow_succ_r in Hb by lia.
  assert (H : unit ^ (Z.of_nat a + 1) < unit ^ Z.succ (Z.of_nat b + 1)) by lia.
  apply Z.pow_lt_mono_r_iff in H; unfold unit; lia.
Qed.

End FormatBytesUnit.

(** X1: on every [int64] value the index into ["KMGTPE"] is in range, so
    [FormatBytes] returns a string and never panics. *)
Theorem FormatBytes_never_panics (bytes : Z) :
  int64_range bytes -> exists s, FormatBytes bytes = Some s.
Proof.
  intros [Hlo Hhi]. unfold FormatBytes.
  destruct (Z.ltb_spec bytes unit) as [|Hu]; [eauto|].
  destruct (FormatBytes_loop_start bytes Hu Hhi) as [Hp [Hle Hlt]].
  destruct (FormatBytes_loop (Z.quot bytes unit) unit 0) as [div exp].
  simpl in *. subst div.
  assert (He : (exp <= 5)%nat).
  { apply (pow_unit_between exp 5 bytes Hle). unfold unit. simpl. lia. }
  do 6 (destruct exp as [|exp]; [simpl; eauto|]). lia.
Qed.

Lemma FormatBytes_never_panics_witness :
  int64_range (2 ^ 63 - 1) /\ exists s, FormatBytes (2 ^ 63 - 1) = Some s.
Proof.
  assert (H : int64_range (2 ^ 63 - 1)) by (unfold int64_range; lia).
  split; [exact H | exact (FormatBytes_never_panics (2 ^ 63 - 1) H)].
Defined.

(** X2: for every [int64] value of at least 1024, the loop leaves in
    [div] the largest power of 1024 that does not exceed [bytes], with
    [exp] one less than its exponent and at most 5; the multiplications
    [div *= unit] never overflow. *)
Theorem FormatBytes_loop_largest_power (bytes : Z) :
  1024 <= bytes -> bytes < 2 ^ 63 ->
  let r := FormatBytes_loop (Z.quot bytes unit) unit 0 in
  fst r = 1024 ^ (Z.of_nat (snd r) + 1) /\
  fst r <= bytes < 1024 * fst r /\
  (snd r <= 5)%nat.
Proof.
  intros Hu Hmax r.
  destruct (FormatBytes_loop_start bytes Hu Hmax) as [Hp [Hle Hlt]].
  fold r in Hp, Hle, Hlt. split; [exact Hp|]. split; [split; assumption|].
  rewrite Hp in Hle.
  apply (pow_unit_between (snd r) 5 bytes Hle). unfold unit. simpl. lia.
Qed.

Lemma FormatBytes_loop_largest_power_witness :
  FormatBytes_loop (Z.quot (5 * 1024 ^ 3 + 7) unit) unit 0 = (1024 ^ 3, 2%nat) /\
  fst (FormatBytes_loop (Z.quot (5 * 1024 ^ 3 + 7) unit) unit 0)
  <= 5 * 1024 ^ 3 + 7
  < 1024 * fst (FormatBytes_loop (Z.quot (5 * 1024 ^ 3 + 7) unit) unit 0).
Proof.
  split; [reflexivity|].
  apply (FormatBytes_loop_largest_power (5 * 1024 ^ 3 + 7)); lia.
Defined.

(** X3: an [int64] value between [1024^(k+1)] and [1024^(k+2)] is
    printed in the unit whose letter is the [k]-th of ["KMGTPE"] (KB from
    1024, MB from 1024^2, up to EB), as the quotient by [1024^(k+1)]. *)
Theorem FormatBytes_unit_letter (k : nat) (bytes : Z) :
  1024 ^ (Z.of_nat k + 1) <= bytes < 1024 ^ (Z.of_nat k + 2) ->
  bytes < 2 ^ 63 ->
  exists c,
    GoStrings.index "KMGTPE" k = Some c /\
    FormatBytes bytes
    = Some (fmt.verb_f1 (float64.div (float64.of_int64 bytes)
                                     (float64.of_int64 (1024 ^ (Z.of_nat k + 1))))
            +:+ " " +:+ String c "B").
Proof.
  intros [Hlo Hhi] Hmax.
  assert (Hu : unit <= bytes).
  { eapply Z.le_trans; [|exact Hlo].
    change unit with (1024 ^ 1). apply Z.pow_le_mono_r; lia. }
  destruct (FormatBytes_loop_start bytes Hu Hmax) as [Hp [Hle Hlt]].
  unfold FormatBytes. destruct (Z.ltb_spec bytes unit); [lia|].
  destruct (FormatBytes_loop (Z.quot bytes unit) unit 0) as [div exp].
  simpl in *. subst div.
  assert (exp = k) as ->.
  { apply Nat.le_antisymm.
    - apply (pow_unit_between exp k bytes Hle).
      rewrite <- Z.pow_succ_r by lia.
      replace (Z.succ (Z.of_nat k + 1)) with (Z.of_nat k + 2) by lia. exact Hhi.
    - apply (pow_unit_between k exp bytes Hlo Hlt). }
  assert (Hk : (k <= 5)%nat).
  { apply (pow_unit_between k 5 bytes Hlo). unfold unit. simpl. lia. }
  do 6 (destruct k as [|k]; [eexists; split; reflexivity|]). lia.
Qed.

Lemma FormatBytes_unit_letter_witness :
  exists c,
    GoStrings.index "KMGTPE" 2 = Some c /\
    FormatBytes (5 * 1024 ^ 3 + 7)
    = Some (fmt.verb_f1 (float64.div (float64.of_int64 (5 * 1024 ^ 3 + 7))
                                     (float64.of_int64 (1024 ^ (Z.of_nat 2 + 1))))
            +:+ " " +:+ String c "B").
Proof.
  apply (FormatBytes_unit_letter 2 (5 * 1024 ^ 3 + 7)); simpl; lia.
Defined.

(** ** The environment resolver: edge cases and round trip *)

Section ResolverExtra.

Implicit Types (env : Env) (key v d : string).

Lemma getEnv_cases env key d :
  getEnv env key d = if String.eqb (Getenv env key) "" then d else Getenv env key.
Proof. unfold getEnv. now destruct (String.eqb (Getenv env key) ""). Qed.

Lemma Getenv_insert env key key' v :
  Getenv (<[key := v]> env) key' = if decide (key = key') then v else Getenv env key'.
Proof.
  unfold Getenv. rewrite lookup_insert.
  now destruct (decide (key = key')).
Qed.

Lemma same_letterb_cases (a b : ascii) :
  List.In b ["t"; "r"; "u"; "e"]%char ->
  same_letterb a b = true ->
  a = b \/ a = ascii_of_nat (nat_of_ascii b - 32).
Proof.
  intros Hb. simpl in Hb.
  destruct Hb as [<-|[<-|[<-|[<-|[]]]]];
    destruct a as [[] [] [] [] [] [] [] []]; vm_compute;
    intros H; try discriminate H; auto.
Qed.

Lemma eq_foldb_true_spellings v :
  eq_foldb v "true" = true -> List.In v true_texts.
Proof.
  destruct v as [|a [|b [|c [|d [|x v]]]]]; simpl; intros H;
    rewrite ?andb_false_r in H; try discriminate H.
  apply andb_prop in H as [Ha H]. apply andb_prop in H as [Hb H].
  apply andb_prop in H as [Hc H]. apply andb_prop in H as [Hd _].
  apply same_letterb_cases in Ha; [|simpl; tauto].
  apply same_letterb_cases in Hb; [|simpl; tauto].
  apply same_letterb_cases in Hc; [|simpl; tauto].
  apply same_letterb_cases in Hd; [|simpl; tauto].
  destruct Ha as [-> | ->], Hb as [-> | ->], Hc as [-> | ->], Hd as [-> | ->];
    vm_compute; tauto.
Qed.

Lemma true_text_iff v : true_text v = true <-> List.In v true_texts.
Proof.
  split.
  - unfold true_text. intros [H|H]%orb_prop.
    + now apply eq_foldb_true_spellings.
    + apply String.eqb_eq in H as ->. unfold true_texts. simpl. tauto.
  - unfold true_texts. simpl.
    intros H. repeat (destruct H as [<- | H]; [reflexivity|]). destruct H.
Qed.

End ResolverExtra.

(** X4: [getEnv] returns the empty string only when the default is
    empty and the variable is absent or empty; hence the fields Level,
    Format, Output and TimeFormat of the Config built by [InitFromEnv]
    are never empty, whatever the environment. *)
Theorem getEnv_never_empty (env : Env) (key d : string) :
  (getEnv env key d = "" <-> d = "" /\ absent_or_empty env key) /\
  cfg_Level (InitFromEnv_cfg env) <> "" /\
  cfg_Format (InitFromEnv_cfg env) <> "" /\
  cfg_Output (InitFromEnv_cfg env) <> "" /\
  cfg_TimeFormat (InitFromEnv_cfg env) <> "".
Proof.
  assert (G : forall k d', getEnv env k d' = "" <-> d' = "" /\ absent_or_empty env k).
  { intros k d'. rewrite getEnv_cases, Getenv_absent_or_empty.
    destruct (String.eqb_spec (Getenv env k) ""); split.
    - intros ->. now split.
    - now intros [-> _].
    - intros H. congruence.
    - intros [_ H]. congruence. }
  split; [apply G|].
  repeat split; simpl; intros H%G; destruct H as [H _]; discriminate H.
Qed.

(** X5: the Config of fixed-default mode depends on the environment
    only through the values [os.Getenv] gives to the five variables: no
    other variable is consulted, and a variable set to the empty string
    cannot be told from an absent one. *)
Theorem InitFromEnv_cfg_only_log_vars (env env' : Env) :
  same_log_vars env env' ->
  InitFromEnv_cfg env = InitFromEnv_cfg env'.
Proof.
  intros H. unfold InitFromEnv_cfg, getEnv, getEnvBool.
  pose proof (H LOG_LEVEL) as H1. pose proof (H LOG_FORMAT) as H2.
  pose proof (H LOG_OUTPUT) as H3. pose proof (H LOG_ADD_SOURCE) as H4.
  pose proof (H LOG_TIME_FORMAT) as H5. simpl in *.
  now rewrite H1, H2, H3, H4, H5.
Qed.

Lemma InitFromEnv_cfg_only_log_vars_witness :
  let env : Env := {[ "LOG_LEVEL" := "WARN" ]} in
  let env' : Env := {[ "LOG_LEVEL" := "WARN"; "LOG_OUTPUT" := "";
                       "IS_SANDBOX" := "1"; "LOG_TIMEZONE" := "UTC" ]} in
  InitFromEnv_cfg env = InitFromEnv_cfg env'.
Proof.
  intros env env'.
  apply (InitFromEnv_cfg_only_log_vars env env').
  intros []; reflexivity.
Defined.

(** X6: every Config whose fields Level, Format, Output and TimeFormat
    are non-empty and whose Timezone is empty is built by [InitFromEnv]
    from the environment that sets the five variables to the texts of its
    fields; in particular the Config built from any environment is built
    again from its own texts. *)
Theorem InitFromEnv_cfg_explicit_round_trip (cfg : Config) :
  cfg_Level cfg <> "" -> cfg_Format cfg <> "" -> cfg_Output cfg <> "" ->
  cfg_TimeFormat cfg <> "" -> cfg_Timezone cfg = "" ->
  InitFromEnv_cfg (explicit_env cfg) = cfg.
Proof.
  intros H1 H2 H3 H4 H5. destruct cfg as [lv fm out src tf tz]. simpl in *.
  subst tz.
  unfold InitFromEnv_cfg, explicit_env, getEnv, getEnvBool.
  rewrite !Getenv_insert. simpl.
  apply String.eqb_neq in H1, H2, H3, H4.
  rewrite H1, H2, H3, H4. simpl. now destruct src.
Qed.

Lemma InitFromEnv_cfg_explicit_round_trip_witness :
  let env : Env := {[ "LOG_FORMAT" := "json"; "LOG_ADD_SOURCE" := "0" ]} in
  InitFromEnv_cfg (explicit_env (InitFromEnv_cfg env)) = InitFromEnv_cfg env.
Proof.
  intros env.
  apply (InitFromEnv_cfg_explicit_round_trip (InitFromEnv_cfg env));
    first [discriminate | reflexivity].
Defined.

(** X7: a variable set to a non-empty text is parsed as true exactly for
    the seventeen texts of [true_texts] (the spellings of [true] in any
    mix of cases, and [1]); nothing is trimmed and no other text, such as
    [yes], [on] or [t], is accepted. *)
Theorem getEnvBool_accepted_texts (env : Env) (key v : string) (d : bool) :
  set_to env key v ->
  (getEnvBool env key d = true <-> List.In v true_texts).
Proof.
  intros H. rewrite (getEnvBool_value env key d v H). apply true_text_iff.
Qed.

Lemma getEnvBool_accepted_texts_witness :
  let env : Env := {[ "LOG_ADD_SOURCE" := " true" ]} in
  getEnvBool env "LOG_ADD_SOURCE" true <> true.
Proof.
  intros env H.
  apply (getEnvBool_accepted_texts env "LOG_ADD_SOURCE" " true" true) in H.
  - vm_compute in H. repeat (destruct H as [H|H]; [discriminate H|]). exact H.
  - split; [reflexivity | discriminate].
Defined.

(** ** Errors through LogError and LogAndWrap *)

Section WrapChain.

Implicit Types (msgs : list string) (e r : error_value) (attrs : list any)
         (w : World).

Lemma unwrap_n_outer (n : nat) r c :
  unwrap_n n r = Some c -> unwrap_n (S n) r = GoError.Unwrap c.
Proof.
  revert r. induction n as [|n IH]; intros r.
  - intros [= ->]. simpl. now destruct (GoError.Unwrap c).
  - simpl. destruct (GoError.Unwrap r) as [cause|]; [|discriminate].
    intros H. apply IH in H. exact H.
Qed.

End WrapChain.

(** X8: [LogAndWrap] never returns the nil error: given a nil [err] it
    still logs at level Error and returns a non-nil error with the text
    [msg: %!w(<nil>)] that wraps nothing, whereas [LogError] given a nil
    [err] logs and returns nil. *)
Theorem LogAndWrap_never_nil
        (loggerKey : any) (ctx : ctx_value) (msg : string) (err : error)
        (attrs : list any) (w : World) :
  fst (LogAndWrap msg err attrs w) <> None /\
  (exists r, fst (LogAndWrap msg None attrs w) = Some r /\
             GoError.Error r = msg +:+ ": %!w(<nil>)" /\
             GoError.Unwrap r = None) /\
  last_call (snd (LogAndWrap msg None attrs w))
  = Some (mkLogCall (slog.Default w) LevelError msg
                    (AnyString "error" :: AnyNil :: attrs)) /\
  fst (LogError loggerKey ctx msg None attrs w) = None.
Proof.
  split; [destruct err; discriminate|]. split.
  - eexists. repeat split.
  - split; [|reflexivity].
    unfold last_call. rewrite LogAndWrap_calls, last_snoc. reflexivity.
Qed.

(** X9: when a non-nil error passes through [LogAndWrap] in a chain of
    callers, the error that comes out carries the messages of all of them,
    outermost first, each followed by [": "], before the original text;
    unwrapping it once per caller gives back the original error; and one
    Error record is logged per caller. *)
Theorem LogAndWrap_chain_wraps
        (msgs : list string) (e : error_value) (attrs : list any) (w : World) :
  exists r,
    fst (LogAndWrap_chain msgs (Some e) attrs w) = Some r /\
    GoError.Error r = wrapped_text msgs (GoError.Error e) /\
    unwrap_n (length msgs) r = Some e /\
    length (calls (snd (LogAndWrap_chain msgs (Some e) attrs w)))
    = (length (calls w) + length msgs)%nat.
Proof.
  revert e w. induction msgs as [|msg msgs IH]; intros e w.
  - exists e. simpl. repeat split. lia.
  - simpl LogAndWrap_chain.
    destruct (IH (WrapError (msg +:+ ": " +:+ GoError.Error e) e)
                 (slog.Error msg (AnyString "error" :: AnyError e :: attrs) w))
      as (r & Hr & Ht & Hu & Hc).
    exists r. split; [exact Hr|]. split; [exact Ht|]. split.
    + simpl length. rewrite (unwrap_n_outer _ _ _ Hu). reflexivity.
    + rewrite Hc. unfold slog.Error. rewrite log_calls, length_app. simpl. lia.
Qed.

(** ** FormatBytes: the floating-point path is exact below [2^53] *)

Section FloatExact.

Lemma pow2_pos (x : Z) : 0 <= x -> 0 < 2 ^ x.
Proof. intros H. apply Z.pow_pos_nonneg; lia. Qed.

Lemma log2_below_53 (M : Z) : 0 < M < 2 ^ 53 -> 0 <= Z.log2 M <= 52.
Proof.
  intros [H0 H]. split; [apply Z.log2_nonneg|].
  apply Z.log2_lt_pow2 in H; lia.
Qed.

Lemma scaled_to_52_bits (M : Z) :
  0 < M < 2 ^ 53 -> 2 ^ 52 <= M * 2 ^ (52 - Z.log2 M).
Proof.
  intros H. pose proof (log2_below_53 M H) as Hk.
  destruct (Z.log2_spec M ltac:(lia)) as [Hlo _].
  replace (2 ^ 52) with (2 ^ Z.log2 M * 2 ^ (52 - Z.log2 M)).
  - apply Z.mul_le_mono_nonneg_r; [|exact Hlo].
    pose proof (pow2_pos (52 - Z.log2 M)). lia.
  - rewrite <- Z.pow_add_r by lia. f_equal. lia.
Qed.

(** A dyadic number whose significand has at most 53 bits is its own
    rounding. *)
Lemma round_dyadic (M a j : Z) :
  0 < M < 2 ^ 53 -> 0 <= a -> 0 <= j ->
  float64.round (M * 2 ^ a) (2 ^ j)
  = float64.mk (M * 2 ^ (52 - Z.log2 M)) (Z.log2 M + a - j - 52).
Proof.
  intros HM Ha Hj.
  pose proof (log2_below_53 M HM) as Hk.
  pose proof (scaled_to_52_bits M HM) as H52.
  unfold float64.round.
  rewrite Z.log2_mul_pow2, Z.log2_pow2 by lia.
  set (k := Z.log2 M) in *.
  set (e0 := a + k - j - 52).
  set (m0 := M * 2 ^ (52 - k)) in *.
  assert (Hs : exists b, 0 < b /\
             (M * 2 ^ a * 2 ^ Z.max 0 (- e0), 2 ^ j * 2 ^ Z.max 0 e0) = (m0 * b, b)).
  { exists (2 ^ j * 2 ^ Z.max 0 e0). split.
    - pose proof (pow2_pos j Hj). pose proof (pow2_pos (Z.max 0 e0)). nia.
    - f_equal. unfold m0.
      destruct (Z.le_gt_cases e0 0).
      + rewrite (Z.max_r 0 (- e0)), (Z.max_l 0 e0) by lia.
        rewrite <- !Z.mul_assoc. f_equal.
        rewrite <- !Z.pow_add_r by lia. f_equal. lia.
      + rewrite (Z.max_l 0 (- e0)), (Z.max_r 0 e0) by lia.
        rewrite <- !Z.mul_assoc. f_equal.
        rewrite <- !Z.pow_add_r by lia. f_equal. lia. }
  destruct Hs as (b & Hb & Hs). injection Hs as Hs1 Hs2.
  cbv beta zeta. cbv beta iota delta [fst snd].
  rewrite Hs1, Hs2, Z.div_mul by lia.
  destruct (Z.ltb_spec m0 (2 ^ 52)); [lia|].
  cbv beta iota. rewrite Hs1, Hs2, Z.div_mul by lia.
  replace (m0 * b - m0 * b) with 0 by lia.
  destruct (Z.ltb_spec b (2 * 0)); [lia|].
  destruct (Z.eqb_spec (2 * 0) b); [lia|].
  cbv beta iota delta [orb andb]. unfold m0, e0. f_equal. lia.
Qed.

Lemma of_int64_exact (z : Z) :
  0 < z < 2 ^ 53 ->
  float64.of_int64 z = float64.mk (z * 2 ^ (52 - Z.log2 z)) (Z.log2 z - 52).
Proof.
  intros H. unfold float64.of_int64.
  replace (float64.round z 1) with (float64.round (z * 2 ^ 0) (2 ^ 0))
    by (f_equal; simpl; lia).
  rewrite round_dyadic by lia. f_equal. lia.
Qed.

Lemma of_int64_pow2 (j : Z) :
  0 <= j -> float64.of_int64 (2 ^ j) = float64.mk (2 ^ 52) (j - 52).
Proof.
  intros H. unfold float64.of_int64.
  replace (float64.round (2 ^ j) 1) with (float64.round (1 * 2 ^ j) (2 ^ 0))
    by (f_equal; simpl; lia).
  rewrite round_dyadic by lia. simpl Z.log2. f_equal; lia.
Qed.

(** The quotient of an integer below [2^53] by a power of two is
    computed without error. *)
Lemma div_pow2_exact (z j : Z) :
  0 < z < 2 ^ 53 -> 0 <= j ->
  float64.div (float64.of_int64 z) (float64.of_int64 (2 ^ j))
  = float64.mk (z * 2 ^ (52 - Z.log2 z)) (Z.log2 z - j - 52).
Proof.
  intros Hz Hj. pose proof (log2_below_53 z Hz) as Hk.
  rewrite of_int64_exact, of_int64_pow2 by assumption.
  unfold float64.div, float64.num, float64.den. simpl float64.mant. simpl float64.expo.
  set (k := Z.log2 z) in *.
  set (A := 52 - k + Z.max 0 (- (j - 52))).
  set (B := 52 - k + 52 + Z.max 0 (j - 52)).
  assert (Hp : z * 2 ^ (52 - k) * 2 ^ Z.max 0 (k - 52) * 2 ^ Z.max 0 (- (j - 52))
               = z * 2 ^ A).
  { rewrite (Z.max_l 0 (k - 52)), Z.pow_0_r, Z.mul_1_r by lia.
    rewrite <- Z.mul_assoc, <- Z.pow_add_r by lia. reflexivity. }
  assert (Hq : 2 ^ Z.max 0 (- (k - 52)) * (2 ^ 52 * 2 ^ Z.max 0 (j - 52)) = 2 ^ B).
  { rewrite (Z.max_r 0 (- (k - 52))) by lia.
    rewrite <- !Z.pow_add_r by lia. f_equal. unfold B. lia. }
  rewrite Hp, Hq, round_dyadic by lia. fold k. f_equal. lia.
Qed.

(** The verb [%.1f] depends on the value only, not on the way the
    fraction is written. *)
Lemma verb_f1_scale (x y : float64.t) (c : Z) :
  0 < c ->
  float64.num x = c * float64.num y ->
  float64.den x = c * float64.den y ->
  fmt.verb_f1 x = fmt.verb_f1 y.
Proof.
  intros Hc Hn Hd. unfold fmt.verb_f1. rewrite Hn, Hd.
  assert (Hy : 0 < float64.den y).
  { unfold float64.den. apply pow2_pos. lia. }
  set (a := float64.num y) in *. set (b := float64.den y) in *.
  replace (10 * (c * a)) with (c * (10 * a)) by ring.
  rewrite Z.div_mul_cancel_l by lia.
  set (m := 10 * a / b).
  replace (c * (10 * a) - m * (c * b)) with (c * (10 * a - m * b)) by ring.
  set (r := 10 * a - m * b).
  assert (E1 : (c * b <? 2 * (c * r)) = (b <? 2 * r)).
  { destruct (Z.ltb_spec (c * b) (2 * (c * r))), (Z.ltb_spec b (2 * r));
      try reflexivity; nia. }
  assert (E2 : (2 * (c * r) =? c * b) = (2 * r =? b)).
  { destruct (Z.eqb_spec (2 * (c * r)) (c * b)), (Z.eqb_spec (2 * r) b);
      try reflexivity; nia. }
  now rewrite E1, E2.
Qed.

Lemma verb_f1_div_exact (z j : Z) :
  0 < z < 2 ^ 53 -> 0 <= j ->
  fmt.verb_f1 (float64.div (float64.of_int64 z) (float64.of_int64 (2 ^ j)))
  = fmt.verb_f1 (float64.mk z (- j)).
Proof.
  intros Hz Hj. pose proof (log2_below_53 z Hz) as Hk.
  rewrite div_pow2_exact by assumption.
  apply (verb_f1_scale _ _ (2 ^ (52 - Z.log2 z))).
  - apply pow2_pos. lia.
  - unfold float64.num. simpl.
    rewrite (Z.max_l 0 (Z.log2 z - j - 52)), (Z.max_l 0 (- j)) by lia.
    rewrite !Z.pow_0_r. ring.
  - unfold float64.den. simpl.
    rewrite (Z.max_r 0 (- (Z.log2 z - j - 52))), (Z.max_r 0 (- - j)) by lia.
    rewrite <- Z.pow_add_r by lia. f_equal. lia.
Qed.

(** The tenths printed by [%.1f] for the fraction [a / b]: at most half
    a tenth away from it. *)
Lemma tenths_nearest (a b : Z) :
  0 < b ->
  let m := a / b in
  let r := a - m * b in
  let up := ((b <? 2 * r) || ((2 * r =? b) && Z.odd m))%bool in
  let t := if up then m + 1 else m in
  2 * Z.abs (a - t * b) <= b /\ m <= t <= m + 1.
Proof.
  intros Hb m r up t.
  assert (Hr : 0 <= r < b).
  { unfold r, m. pose proof (Z.mul_div_le a b Hb).
    pose proof (Z.mul_succ_div_gt a b Hb). lia. }
  unfold t, up.
  destruct (Z.ltb_spec b (2 * r)); simpl.
  - split; [|lia]. replace (a - (m + 1) * b) with (r - b) by (unfold r; ring). lia.
  - destruct (Z.eqb_spec (2 * r) b); simpl.
    + destruct (Z.odd m).
      * split; [|lia].
        replace (a - (m + 1) * b) with (r - b) by (unfold r; ring). lia.
      * split; [|lia]. fold r. lia.
    + split; [|lia]. fold r. lia.
Qed.

Lemma FormatBytes_loop_in_range (k : nat) (bytes : Z) :
  unit ^ (Z.of_nat k + 1) <= bytes < unit ^ (Z.of_nat k + 2) ->
  bytes < 2 ^ 63 ->
  FormatBytes_loop (Z.quot bytes unit) unit 0 = (unit ^ (Z.of_nat k + 1), k)
  /\ (k <= 5)%nat.
Proof.
  intros [Hlo Hhi] Hmax.
  assert (Hu : unit <= bytes).
  { eapply Z.le_trans; [|exact Hlo].
    change unit with (1024 ^ 1). apply Z.pow_le_mono_r; lia. }
  destruct (FormatBytes_loop_start bytes Hu Hmax) as [Hp [Hle Hlt]].
  destruct (FormatBytes_loop (Z.quot bytes unit) unit 0) as [div exp].
  simpl in *. subst div.
  assert (exp = k) as ->.
  { apply Nat.le_antisymm.
    - apply (pow_unit_between exp k bytes Hle).
      rewrite <- Z.pow_succ_r by lia.
      replace (Z.succ (Z.of_nat k + 1)) with (Z.of_nat k + 2) by lia. exact Hhi.
    - apply (pow_unit_between k exp bytes Hlo Hlt). }
  split; [reflexivity|].
  apply (pow_unit_between k 5 bytes Hlo). unfold unit. simpl. lia.
Qed.

End FloatExact.

(** X10: for a value of at least 1024 and below [2^53], the floating-point
    conversion and division lose nothing: the number printed, [t] tenths,
    is within half a tenth of the exact quotient of [bytes] by the unit
    [1024^(k+1)], and lies between 1.0 and 1024.0. *)
Theorem FormatBytes_nearest_tenth (k : nat) (bytes : Z) :
  1024 ^ (Z.of_nat k + 1) <= bytes < 1024 ^ (Z.of_nat k + 2) ->
  bytes < 2 ^ 53 ->
  exists (c : ascii) (t : Z),
    GoStrings.index "KMGTPE" k = Some c /\
    FormatBytes bytes
    = Some ((fmt.verb_d (t / 10) +:+ "." +:+ fmt.verb_d (t mod 10))
            +:+ " " +:+ String c "B") /\
    2 * Z.abs (10 * bytes - t * 1024 ^ (Z.of_nat k + 1)) <= 1024 ^ (Z.of_nat k + 1) /\
    10 <= t <= 10240.
Proof.
  intros Hr H53.
  destruct (FormatBytes_loop_in_range k bytes Hr ltac:(lia)) as [Hloop Hk].
  destruct Hr as [Hlo Hhi].
  set (j := 10 * (Z.of_nat k + 1)).
  assert (Hj : 1024 ^ (Z.of_nat k + 1) = 2 ^ j).
  { unfold j. rewrite Z.pow_mul_r by lia. reflexivity. }
  assert (Hd : 0 < 2 ^ j) by (apply pow2_pos; unfold j; lia).
  assert (Hu : unit <= bytes).
  { eapply Z.le_trans; [|exact Hlo].
    change unit with (1024 ^ 1). apply Z.pow_le_mono_r; lia. }
  assert (Hc : exists c, GoStrings.index "KMGTPE" k = Some c).
  { do 6 (destruct k as [|k]; [simpl; eauto|]). lia. }
  destruct Hc as [c Hc].
  pose proof (tenths_nearest (10 * bytes) (2 ^ j) Hd) as Ht. cbv zeta in Ht.
  eexists c, _. split; [exact Hc|]. split; [|split].
  - unfold FormatBytes. destruct (Z.ltb_spec bytes unit); [lia|].
    rewrite Hloop, Hc. unfold unit. rewrite Hj.
    rewrite verb_f1_div_exact by (unfold j; lia).
    unfold fmt.verb_f1, float64.num, float64.den. simpl float64.mant.
    simpl float64.expo.
    rewrite (Z.max_l 0 (- j)), (Z.max_r 0 (- - j)) by (unfold j; lia).
    rewrite Z.pow_0_r, Z.mul_1_r, Z.opp_involutive.
    reflexivity.
  - rewrite Hj. apply Ht.
  - rewrite Hj in Hlo.
    replace (Z.of_nat k + 2) with (Z.succ (Z.of_nat k + 1)) in Hhi by lia.
    rewrite Z.pow_succ_r, Hj in Hhi by lia.
    destruct Ht as [_ Ht].
    assert (10 <= 10 * bytes / 2 ^ j).
    { apply Z.div_le_lower_bound; lia. }
    assert (10 * bytes / 2 ^ j < 10240).
    { apply Z.div_lt_upper_bound; lia. }
    lia.
Qed.

Lemma FormatBytes_nearest_tenth_witness :
  exists (c : ascii) (t : Z),
    GoStrings.index "KMGTPE" 1 = Some c /\
    FormatBytes (1536 * 1024)
    = Some ((fmt.verb_d (t / 10) +:+ "." +:+ fmt.verb_d (t mod 10))
            +:+ " " +:+ String c "B") /\
    2 * Z.abs (10 * (1536 * 1024) - t * 1024 ^ (Z.of_nat 1 + 1))
    <= 1024 ^ (Z.of_nat 1 + 1) /\
    10 <= t <= 10240.
Proof.
  apply (FormatBytes_nearest_tenth 1 (1536 * 1024)); simpl; lia.
Defined.

Section FormatBytesEdges.

Lemma FormatBytes_exact_dyadic (k : nat) (bytes : Z) :
  unit ^ (Z.of_nat k + 1) <= bytes < unit ^ (Z.of_nat k + 2) ->
  bytes < 2 ^ 53 ->
  exists c,
    GoStrings.index "KMGTPE" k = Some c /\
    FormatBytes bytes
    = Some (fmt.verb_f1 (float64.mk bytes (- (10 * (Z.of_nat k + 1))))
            +:+ " " +:+ String c "B").
Proof.
  intros Hr H53.
  destruct (FormatBytes_loop_in_range k bytes Hr ltac:(lia)) as [Hloop Hk].
  destruct Hr as [Hlo Hhi].
  assert (Hu : unit <= bytes).
  { eapply Z.le_trans; [|exact Hlo].
    change unit with (1024 ^ 1). apply Z.pow_le_mono_r; lia. }
  assert (Hc : exists c, GoStrings.index "KMGTPE" k = Some c).
  { do 6 (destruct k as [|k]; [simpl; eauto|]). lia. }
  destruct Hc as [c Hc]. exists c. split; [exact Hc|].
  unfold FormatBytes. destruct (Z.ltb_spec bytes unit); [lia|].
  rewrite Hloop, Hc.
  replace (unit ^ (Z.of_nat k + 1)) with (2 ^ (10 * (Z.of_nat k + 1)))
    by (rewrite Z.pow_mul_r by lia; reflexivity).
  unfold unit in Hu. now rewrite verb_f1_div_exact by lia.
Qed.

End FormatBytesEdges.

(** X11: the Config of fixed-default mode has AddSource switched off
    exactly when LOG_ADD_SOURCE is set to a non-empty text that is not one
    of the accepted texts; absent, empty or accepted, it is on. *)
Theorem InitFromEnv_cfg_add_source_off (env : Env) :
  cfg_AddSource (InitFromEnv_cfg env) = false <->
  exists v, set_to env "LOG_ADD_SOURCE" v /\ ~ List.In v true_texts.
Proof.
  simpl. split.
  - intros H. destruct (env !! "LOG_ADD_SOURCE") as [v|] eqn:E.
    + destruct (String.eqb_spec v "") as [->|Hv].
      * rewrite getEnvBool_default in H by (now right). discriminate H.
      * exists v. assert (Hs : set_to env "LOG_ADD_SOURCE" v) by now split.
        split; [exact Hs|]. rewrite (getEnvBool_value _ _ _ _ Hs) in H.
        intros Hin%true_text_iff. congruence.
    + rewrite getEnvBool_default in H by (now left). discriminate H.
  - intros (v & Hs & Hn). rewrite (getEnvBool_value _ _ _ _ Hs).
    destruct (true_text v) eqn:E; [|reflexivity].
    exfalso. apply Hn. now apply true_text_iff.
Qed.

(** X12: between two [int64] values of at least 1024, the larger one is
    never given the smaller unit. *)
Theorem FormatBytes_unit_monotone (bytes bytes' : Z) :
  1024 <= bytes -> bytes <= bytes' -> bytes' < 2 ^ 63 ->
  (snd (FormatBytes_loop (Z.quot bytes unit) unit 0)
   <= snd (FormatBytes_loop (Z.quot bytes' unit) unit 0))%nat.
Proof.
  intros H1 H2 H3.
  destruct (FormatBytes_loop_start bytes H1 ltac:(lia)) as [Hp [Hle _]].
  destruct (FormatBytes_loop_start bytes' ltac:(unfold unit; lia) H3)
    as [Hp' [_ Hlt']].
  rewrite Hp in Hle. rewrite Hp' in Hlt'.
  apply (pow_unit_between _ _ bytes' (Z.le_trans _ _ _ Hle H2) Hlt').
Qed.

Lemma FormatBytes_unit_monotone_witness :
  (snd (FormatBytes_loop (Z.quot 2000 unit) unit 0)
   <= snd (FormatBytes_loop (Z.quot (3 * 1024 ^ 4) unit) unit 0))%nat.
Proof.
  apply (FormatBytes_unit_monotone 2000 (3 * 1024 ^ 4)); lia.
Defined.

(** X13: the rounding to one decimal does not carry into the next unit:
    a value below [1024^(k+2)] and below [2^53] whose quotient by
    [1024^(k+1)] is at least 1023.95 is printed as 1024.0 of the unit
    [k], not as 1.0 of the next one. *)
Theorem FormatBytes_no_carry (k : nat) (bytes : Z) :
  20479 * 1024 ^ (Z.of_nat k + 1) <= 20 * bytes ->
  bytes < 1024 ^ (Z.of_nat k + 2) ->
  bytes < 2 ^ 53 ->
  exists c,
    GoStrings.index "KMGTPE" k = Some c /\
    FormatBytes bytes = Some ("1024.0 " +:+ String c "B").
Proof.
  intros Hlo Hhi H53.
  set (j := 10 * (Z.of_nat k + 1)).
  assert (Hj : 1024 ^ (Z.of_nat k + 1) = 2 ^ j).
  { unfold j. rewrite Z.pow_mul_r by lia. reflexivity. }
  assert (Hd : 0 < 2 ^ j) by (apply pow2_pos; unfold j; lia).
  assert (Hhi' : bytes < 1024 * 2 ^ j).
  { rewrite <- Hj, <- Z.pow_succ_r by lia.
    replace (Z.succ (Z.of_nat k + 1)) with (Z.of_nat k + 2) by lia. exact Hhi. }
  rewrite Hj in Hlo.
  destruct (FormatBytes_exact_dyadic k bytes) as (c & Hc & HF).
  { unfold unit. rewrite Hj. split; [lia | exact Hhi]. }
  { exact H53. }
  exists c. split; [exact Hc|]. rewrite HF. f_equal.
  unfold fmt.verb_f1, float64.num, float64.den. simpl float64.mant.
  simpl float64.expo. fold j.
  rewrite (Z.max_l 0 (- j)), (Z.max_r 0 (- - j)) by (unfold j; lia).
  rewrite Z.pow_0_r, Z.mul_1_r, Z.opp_involutive.
  assert (Hm : 10 * bytes / 2 ^ j = 10239).
  { symmetry. apply (Z.div_unique_pos _ _ _ (10 * bytes - 2 ^ j * 10239)); lia. }
  rewrite Hm.
  assert (Hup : ((2 ^ j <? 2 * (10 * bytes - 10239 * 2 ^ j))
                 || ((2 * (10 * bytes - 10239 * 2 ^ j) =? 2 ^ j) && Z.odd 10239))%bool
                = true).
  { destruct (Z.ltb_spec (2 ^ j) (2 * (10 * bytes - 10239 * 2 ^ j)));
      [reflexivity|].
    destruct (Z.eqb_spec (2 * (10 * bytes - 10239 * 2 ^ j)) (2 ^ j));
      [reflexivity | lia]. }
  rewrite Hup. reflexivity.
Qed.

Lemma FormatBytes_no_carry_witness :
  exists c,
    GoStrings.index "KMGTPE" 0 = Some c /\
    FormatBytes (1024 * 1024 - 1) = Some ("1024.0 " +:+ String c "B").
Proof.
  apply (FormatBytes_no_carry 0 (1024 * 1024 - 1)); simpl; lia.
Defined.
